(** * codec2 build configuration header: capability descriptor

    The repository vendors codec2 together with its generated
    [third_party/codec2/include/config.h]: an include-guarded list of
    fourteen object-like macros.  This development embeds the header as
    the directive list it is, gives the directives the meaning the C
    preprocessor gives them, and reads the resulting macro table through
    the descriptor interface the specification describes. *)

From Stdlib Require Import ZArith Lia Ascii String PrimFloat.
From Corelib Require Import PrimInt63.
From stdpp Require Import gmap strings list fin_maps.

Local Open Scope string_scope.
Local Open Scope Z_scope.

(** ** The preprocessor fragment the header is written in *)

Module Cpp.

(** The three directives that occur in [config.h].  A [Define] carries
    the macro's replacement text, empty for [#define NAME]. *)
Inductive directive :=
| Ifndef (name : string)
| Define (name body : string)
| Endif.

Inductive pp_error :=
| Redefinition (name : string)
| StrayEndif
| UnterminatedConditional.

(** Preprocessor state: the macro table, and for every conditional
    group that is open, whether its lines are being processed. *)
Record pp_state := PPState {
  macros : gmap string string;
  conds : list bool
}.

Definition initial : pp_state := PPState ∅ [].

Definition active (st : pp_state) : bool :=
  match conds st with
  | [] => true
  | b :: _ => b
  end.

Definition defined (st : pp_state) (name : string) : bool :=
  match macros st !! name with
  | Some _ => true
  | None => false
  end.

(** One directive.  Inside a skipped group nothing is defined; an
    identical redefinition is accepted.  A redefinition with another
    replacement text violates a constraint of the language and ends
    the run here, as it does in a compiler run that treats the
    diagnostic as an error; a run that only warns goes on with the new
    text, and is not what [inl] stands for. *)
Definition directive_step (d : directive) (st : pp_state)
  : pp_error + pp_state :=
  match d with
  | Ifndef name =>
      inr (PPState (macros st)
                   ((active st && negb (defined st name)) :: conds st))
  | Define name body =>
      if active st then
        match macros st !! name with
        | Some old =>
            if String.eqb old body then inr st
            else inl (Redefinition name)
        | None => inr (PPState (<[name := body]> (macros st)) (conds st))
        end
      else inr st
  | Endif =>
      match conds st with
      | [] => inl StrayEndif
      | _ :: outer => inr (PPState (macros st) outer)
      end
  end.

Fixpoint run (ds : list directive) (st : pp_state) : pp_error + pp_state :=
  match ds with
  | [] => inr st
  | d :: rest =>
      match directive_step d st with
      | inl e => inl e
      | inr st' => run rest st'
      end
  end.

(** [#include] of a file: skipped inside a skipped group; otherwise
    the file is processed with its own conditional nesting, which has
    to be closed again at its end. *)
Definition include (file : list directive) (st : pp_state)
  : pp_error + pp_state :=
  if active st then
    match run file (PPState (macros st) []) with
    | inl e => inl e
    | inr st' =>
        match conds st' with
        | [] => inr (PPState (macros st') (conds st))
        | _ :: _ => inl UnterminatedConditional
        end
    end
  else inr st.

(** A translation unit that includes the same file [n] times. *)
Fixpoint include_times (n : nat) (file : list directive) (st : pp_state)
  : pp_error + pp_state :=
  match n with
  | O => inr st
  | S k =>
      match include file st with
      | inl e => inl e
      | inr st' => include_times k file st'
      end
  end.

(** Value of a replacement text that is a decimal integer constant, as
    an [#if] would evaluate it. *)
Definition digit (c : ascii) : option Z :=
  let n := Z.of_nat (nat_of_ascii c) in
  if (48 <=? n) && (n <=? 57) then Some (n - 48) else None.

Fixpoint digits (s : string) (acc : Z) : option Z :=
  match s with
  | EmptyString => Some acc
  | String c rest =>
      match digit c with
      | Some d => digits rest (10 * acc + d)
      | None => None
      end
  end.

Definition integer_constant (body : string) : option Z :=
  match body with
  | EmptyString => None
  | _ => digits body 0
  end.

(** The macros that expand to an integer constant, with their values. *)
Definition values (env : gmap string string) : gmap string Z :=
  omap integer_constant env.

End Cpp.

(** ** The header, line by line *)

Definition guard : string := "_CONFIGURATION_HEADER_GUARD_H_".

Definition config_h : list Cpp.directive :=
  [ Cpp.Ifndef "_CONFIGURATION_HEADER_GUARD_H_";
    Cpp.Define "_CONFIGURATION_HEADER_GUARD_H_" "";
    Cpp.Define "SIZEOF_INT" "4";
    Cpp.Define "HAVE_STDLIB_H" "1";
    Cpp.Define "HAVE_STRING_H" "1";
    Cpp.Define "HAVE_FLOOR" "1";
    Cpp.Define "HAVE_CEIL" "1";
    Cpp.Define "HAVE_MEMSET" "1";
    Cpp.Define "HAVE_POW" "1";
    Cpp.Define "HAVE_SQRT" "1";
    Cpp.Define "HAVE_SIN" "1";
    Cpp.Define "HAVE_COS" "1";
    Cpp.Define "HAVE_ATAN2" "1";
    Cpp.Define "HAVE_LOG10" "1";
    Cpp.Define "HAVE_ROUND" "1";
    Cpp.Define "HAVE_GETOPT" "0";
    Cpp.Endif ].

(** The macro table a translation unit has after including the header
    once, and the integer settings it carries. *)
Definition shipped_macros : gmap string string :=
  match Cpp.include config_h Cpp.initial with
  | inr st => Cpp.macros st
  | inl _ => ∅
  end.

Definition shipped_config : gmap string Z := Cpp.values shipped_macros.

(** The names of the header's settings, in the order of its lines. *)
Definition flag_names : list string :=
  [ "HAVE_STDLIB_H"; "HAVE_STRING_H"; "HAVE_FLOOR"; "HAVE_CEIL";
    "HAVE_MEMSET"; "HAVE_POW"; "HAVE_SQRT"; "HAVE_SIN"; "HAVE_COS";
    "HAVE_ATAN2"; "HAVE_LOG10"; "HAVE_ROUND"; "HAVE_GETOPT" ].

Definition recognized_names : list string := "SIZEOF_INT" :: flag_names.

(** Truth value of a setting, as in [#if HAVE_X]. *)
Definition truthy (v : Z) : bool := negb (v =? 0).

(** ** The capability descriptor *)

Inductive error :=
| ConfigurationError
| NumericDomainError
| CapabilityMismatchError.

(** Modelled from the spec: the widths the resolver has code paths for.
    Section 4.1 gives 2, 4 and 8 as examples; they are taken here as
    the whole set.  The header only fixes the value. *)
Definition supported_widths : list Z := [2; 4; 8].

Definition supported_width (w : Z) : bool :=
  existsb (Z.eqb w) supported_widths.

(** Modelled from the spec: the IntWidth invariant of section 3, a
    positive power-of-two byte count, in the usual bit test. *)
Definition power_of_two (w : Z) : bool :=
  (0 <? w) && (Z.land w (w - 1) =? 0).

(** Modelled from the spec: the descriptor of section 3, the integer
    width and one boolean per capability flag, kept under the flag's
    name because consumers query the table by name (section 6).  The
    repository has the header only; no code of it builds a descriptor. *)
Record Descriptor := MkDescriptor {
  desc_width : Z;
  desc_flags : gmap string bool
}.

(** Modelled from the spec: a setting without an explicit value is a
    configuration error, there is no default (section 4.1, clause a). *)
Definition required (cfg : gmap string Z) (name : string) : error + Z :=
  match cfg !! name with
  | Some v => inr v
  | None => inl ConfigurationError
  end.

(** Modelled from the spec: reading the boolean flags of a list of
    names, each one required. *)
Fixpoint read_flags (cfg : gmap string Z) (names : list string)
  : error + gmap string bool :=
  match names with
  | [] => inr ∅
  | name :: rest =>
      match required cfg name with
      | inl e => inl e
      | inr v =>
          match read_flags cfg rest with
          | inl e => inl e
          | inr m => inr (<[name := truthy v]> m)
          end
      end
  end.

(** Modelled from the spec: construction of section 4.1.  It fails with
    [ConfigurationError] when a setting is absent (clause a) or the
    integer width is not a supported one (clause b).  Only the
    recognized names are read; what else a configuration holds is not
    looked at here. *)
Definition construct (cfg : gmap string Z) : error + Descriptor :=
  match required cfg "SIZEOF_INT" with
  | inl e => inl e
  | inr w =>
      if supported_width w then
        match read_flags cfg flag_names with
        | inl e => inl e
        | inr m => inr (MkDescriptor w m)
        end
      else inl ConfigurationError
  end.

(** Modelled from the spec: the lookup [isAvailable] of section 4.1,
    by name as in section 6; a name that is no capability flag is a
    [ConfigurationError]. *)
Definition isAvailable (d : Descriptor) (name : string) : error + bool :=
  match desc_flags d !! name with
  | Some b => inr b
  | None => inl ConfigurationError
  end.

(** Modelled from the spec: the accessor [intWidth] of section 4.1. *)
Definition intWidth (d : Descriptor) : Z := desc_width d.

(** The descriptor of the header as shipped. *)
Definition shipped_descriptor : Descriptor :=
  match construct shipped_config with
  | inr d => d
  | inl _ => MkDescriptor 0 ∅
  end.

(** The specification's name for the option-parser flag. *)
Definition HasOptionParser : string := "HAVE_GETOPT".

(** ** The primitive resolver *)

Inductive implementation := Native | Fallback.

(** Modelled from the spec: section 4.2, a flag that is available
    resolves to the platform primitive, one that is not to the portable
    fallback. *)
Definition resolve (d : Descriptor) (name : string) : error + implementation :=
  match isAvailable d name with
  | inl e => inl e
  | inr true => inr Native
  | inr false => inr Fallback
  end.

(** ** Portable fallbacks *)

Module Fallback.

(** Modelled from the spec: the relative tolerance of the square-root
    iteration, 1e-12 (section 4.2, row HasSqrt). *)
Definition sqrt_epsilon : float := (1 / 1e12)%float.

(** Modelled from the spec: the seed, a magnitude estimate taken from
    the binary exponent of the argument, that is two to the power of
    half the exponent.  [frshiftexp] and [ldshiftexp] carry the exponent
    with a bias of 2101. *)
Definition magnitude_seed (x : float) : float :=
  let (_, e) := frshiftexp x in
  ldshiftexp 1%float (PrimInt63.lsr (PrimInt63.add e 2101%uint63) 1%uint63).

(** Modelled from the spec: Newton-Raphson steps on binary64 until two
    successive iterates agree within the tolerance. *)
Fixpoint newton_sqrt (fuel : nat) (x y : float) : float :=
  match fuel with
  | O => y
  | S k =>
      let y' := ((y + x / y) / 2)%float in
      if (abs (y' - y) <=? sqrt_epsilon * y')%float then y'
      else newton_sqrt k x y'
  end.

(** Modelled from the spec: the fallback square root; a negative
    argument is a [NumericDomainError].  The repository has no
    fallback of its own. *)
Definition sqrt (x : float) : error + float :=
  if (x <? 0)%float then inl NumericDomainError
  else if (x =? 0)%float then inr x
  else inr (newton_sqrt 64 x (magnitude_seed x)).

(** Modelled from the spec: the options of the minimal parser, single
    characters that are a switch or take one argument (section 4.2),
    declared the way getopt declares them: a character, followed by
    a colon when the option takes an argument. *)
Inductive opt_kind := Switch | WithArgument.

Fixpoint opt_lookup (optstring : string) (c : ascii) : option opt_kind :=
  match optstring with
  | EmptyString => None
  | String o rest =>
      match rest with
      | String ":" rest' =>
          if Ascii.eqb o c then Some WithArgument else opt_lookup rest' c
      | _ =>
          if Ascii.eqb o c then Some Switch else opt_lookup rest c
      end
  end.

Inductive parsed :=
| Flag (c : ascii)
| Valued (c : ascii) (value : string).

Inductive arg_class :=
| Short (c : ascii)
| Unsupported
| Operand.

(** Modelled from the spec: only [-x] is an option; an argument that
    starts with two dashes, or packs more than one character behind
    the dash, is outside the supported surface. *)
Definition classify (arg : string) : arg_class :=
  match arg with
  | String "-" (String "-" _) => Unsupported
  | String "-" (String c EmptyString) => Short c
  | String "-" (String _ (String _ _)) => Unsupported
  | _ => Operand
  end.

(** Modelled from the spec: a long-form argument, two dashes and a
    name (section 8). *)
Definition long_form (arg : string) : bool :=
  match arg with
  | String "-" (String "-" _) => true
  | _ => false
  end.

(** Modelled from the spec: the fallback option parser.  It reads
    every argument: options wherever they stand, operands collected in
    their order.  An unsupported or undeclared option, or an option
    that misses its argument, is a [ConfigurationError]; so is a
    long-form argument wherever it stands, also where the argument of
    an option is expected. *)
Fixpoint getopt (optstring : string) (argv : list string)
  : error + (list parsed * list string) :=
  match argv with
  | [] => inr ([], [])
  | arg :: rest =>
      match classify arg with
      | Unsupported => inl ConfigurationError
      | Operand =>
          match getopt optstring rest with
          | inl e => inl e
          | inr (opts, operands) => inr (opts, arg :: operands)
          end
      | Short c =>
          match opt_lookup optstring c with
          | None => inl ConfigurationError
          | Some Switch =>
              match getopt optstring rest with
              | inl e => inl e
              | inr (opts, operands) => inr (Flag c :: opts, operands)
              end
          | Some WithArgument =>
              match rest with
              | [] => inl ConfigurationError
              | value :: rest' =>
                  if long_form value then inl ConfigurationError
                  else
                    match getopt optstring rest' with
                    | inl e => inl e
                    | inr (opts, operands) =>
                        inr (Valued c value :: opts, operands)
                    end
              end
          end
      end
  end.

End Fallback.

(** ** The header's lines as a table *)

(** The [#define] lines of a file, in the order of the file. *)
Fixpoint defines_of (ds : list Cpp.directive) : list (string * string) :=
  match ds with
  | [] => []
  | Cpp.Define name body :: rest => (name, body) :: defines_of rest
  | _ :: rest => defines_of rest
  end.

Definition define_line (line : string * string) : Cpp.directive :=
  Cpp.Define line.1 line.2.

(** The fifteen [#define] lines of [config.h]: the guard and the
    fourteen settings. *)
Definition header_defines : list (string * string) := defines_of config_h.

(** The first line, in file order, whose macro a table already defines
    with another replacement text. *)
Fixpoint first_conflict (defs : list (string * string))
  (m : gmap string string) : option string :=
  match defs with
  | [] => None
  | (name, body) :: rest =>
      match m !! name with
      | Some old =>
          if String.eqb old body then first_conflict rest m else Some name
      | None => first_conflict rest m
      end
  end.

(** Two translation units at the point where they include the header:
    one that has defined a macro of its own and HAVE_SQRT as the header
    does, one that has defined HAVE_GETOPT and SIZEOF_INT otherwise. *)
Definition agreeing_unit : Cpp.pp_state :=
  Cpp.PPState (<["CODEC2_MODE" := "8"]> (<["HAVE_SQRT" := "1"]> ∅)) [].

Definition agreeing_unit_included : Cpp.pp_state :=
  Cpp.PPState (shipped_macros ∪ Cpp.macros agreeing_unit) [].

Definition overriding_unit : Cpp.pp_state :=
  Cpp.PPState (<["HAVE_GETOPT" := "1"]> (<["SIZEOF_INT" := "8"]> ∅)) [].

(** * Properties *)

(** ** The header *)

Example shipped_sizeof_int : shipped_config !! "SIZEOF_INT" = Some 4.
Proof. vm_compute. reflexivity. Qed.

Example shipped_guard_has_no_value :
  shipped_macros !! guard = Some "" ∧ shipped_config !! guard = None.
Proof. vm_compute. split; reflexivity. Qed.

Example sqrt_two :
  Fallback.sqrt 2%float = inr 0x1.6a09e667f3bccp+0%float.
Proof. vm_compute. reflexivity. Qed.

Example getopt_mixed :
  Fallback.getopt "vo:" ["-v"; "-o"; "out.bit"; "in.raw"; "-v"]
  = inr ([Fallback.Flag "v"; Fallback.Valued "o" "out.bit"; Fallback.Flag "v"],
         ["in.raw"]).
Proof. vm_compute. reflexivity. Qed.

Section Preprocessor.

Import Cpp.

Lemma step_macros_grow d st st' :
  directive_step d st = inr st' → macros st ⊆ macros st'.
Proof.
  destruct d as [name | name body | ]; simpl.
  - intros [= <-]. done.
  - destruct (active st); [| by intros [= <-]].
    destruct (macros st !! name) as [old |] eqn:Hold.
    + destruct (String.eqb old body); [by intros [= <-] | discriminate].
    + intros [= <-]. simpl. by apply insert_subseteq.
  - destruct (conds st); [discriminate | by intros [= <-]].
Qed.

Lemma run_macros_grow ds : ∀ st st',
  run ds st = inr st' → macros st ⊆ macros st'.
Proof.
  induction ds as [| d ds IH]; simpl; intros st st'.
  - by intros [= <-].
  - destruct (directive_step d st) as [e | st1] eqn:Hstep; [discriminate |].
    intros Hrun. etrans; [by eapply step_macros_grow | by apply IH].
Qed.

Lemma include_guarded st :
  is_Some (macros st !! guard) → include config_h st = inr st.
Proof.
  intros [body Hg]. destruct st as [m cs]; simpl in Hg.
  unfold include. destruct (active (PPState m cs)) eqn:Hact; [| done].
  unfold config_h. cbn [run directive_step].
  unfold defined, active at 1. cbn [macros conds].
  fold guard. rewrite Hg. cbn [negb andb].
  reflexivity.
Qed.

Lemma run_guard_open m rest :
  m !! guard = None →
  run (Ifndef guard :: Define guard "" :: rest) (PPState m [])
  = run rest (PPState (<[guard := ""]> m) [true]).
Proof.
  intros Hg. cbn [run directive_step].
  unfold defined, active. cbn [macros conds]. by rewrite Hg.
Qed.

Lemma include_defines_guard st st1 :
  active st = true →
  include config_h st = inr st1 →
  is_Some (macros st1 !! guard).
Proof.
  intros Hact. unfold include. rewrite Hact.
  destruct (run config_h (PPState (macros st) [])) as [e | st'] eqn:Hrun;
    [discriminate |].
  destruct (conds st'); [| discriminate]. intros [= <-]. simpl.
  destruct (macros st !! guard) as [body |] eqn:Hg.
  - apply run_macros_grow in Hrun. simpl in Hrun.
    exists body. by eapply lookup_weaken.
  - unfold config_h in Hrun. fold guard in Hrun.
    rewrite run_guard_open in Hrun by done.
    apply run_macros_grow in Hrun. simpl in Hrun.
    exists "". eapply lookup_weaken; [| exact Hrun].
    apply lookup_insert_eq.
Qed.

Lemma include_again st st1 :
  include config_h st = inr st1 → include config_h st1 = inr st1.
Proof.
  intros Hinc. destruct (active st) eqn:Hact.
  - apply include_guarded. by eapply include_defines_guard.
  - unfold include in Hinc. rewrite Hact in Hinc.
    injection Hinc as <-. unfold include. by rewrite Hact.
Qed.

Lemma include_times_fixed n : ∀ st,
  include config_h st = inr st → include_times n config_h st = inr st.
Proof.
  induction n as [| n IH]; intros st Hfix; simpl; [done |].
  rewrite Hfix. by apply IH.
Qed.

End Preprocessor.

(** ** Construction of the descriptor *)

Section Construction.

Implicit Types (cfg : gmap string Z) (names : list string).

Lemma required_error cfg name e :
  required cfg name = inl e → e = ConfigurationError.
Proof. unfold required. destruct (cfg !! name); congruence. Qed.

Lemma read_flags_error cfg names : ∀ e,
  read_flags cfg names = inl e → e = ConfigurationError.
Proof.
  induction names as [| name rest IH]; simpl; intros e; [discriminate |].
  destruct (required cfg name) eqn:Hreq.
  - intros [= <-]. by eapply required_error.
  - destruct (read_flags cfg rest); [intros [= <-]; by apply IH | discriminate].
Qed.

Lemma read_flags_missing cfg names name :
  name ∈ names → cfg !! name = None →
  read_flags cfg names = inl ConfigurationError.
Proof.
  intros Hin Hnone.
  destruct (read_flags cfg names) as [e | m] eqn:Hread.
  - f_equal. by eapply read_flags_error.
  - exfalso. revert m Hread.
    induction Hin as [name rest | name other rest Hin IH]; simpl; intros m.
    + unfold required. by rewrite Hnone.
    + destruct (required cfg other); [discriminate |].
      destruct (read_flags cfg rest) as [| m'] eqn:Hrest; [discriminate |].
      intros _. by eapply IH.
Qed.

Lemma read_flags_present cfg names :
  Forall (λ name, is_Some (cfg !! name)) names →
  ∃ m, read_flags cfg names = inr m.
Proof.
  induction 1 as [| name rest Hv Hrest IH]; simpl; [by eexists |].
  destruct Hv as [v Hv], IH as [m IH].
  unfold required. rewrite Hv, IH. by eexists.
Qed.

(** What a successful read stores under every name. *)
Lemma read_flags_lookup cfg names : ∀ m name,
  read_flags cfg names = inr m →
  m !! name = if decide (name ∈ names) then truthy <$> cfg !! name else None.
Proof.
  induction names as [| first rest IH]; cbn [read_flags]; intros m name.
  - intros [= <-]. rewrite lookup_empty. case_decide; [set_solver | done].
  - unfold required. destruct (cfg !! first) as [v |] eqn:Hv; [| discriminate].
    destruct (read_flags cfg rest) as [| m'] eqn:Hrest; [discriminate |].
    intros [= <-]. destruct (decide (first = name)) as [-> | Hne].
    + rewrite lookup_insert_eq, Hv. by rewrite decide_True by set_solver.
    + rewrite lookup_insert_ne by done. rewrite (IH m' name eq_refl).
      destruct (decide (name ∈ rest)) as [Hin | Hin].
      * by rewrite decide_True by (by apply list_elem_of_further).
      * rewrite decide_False; [done |].
        by intros [-> | ?]%elem_of_cons.
Qed.

Lemma read_flags_dom cfg names m :
  read_flags cfg names = inr m → dom m = list_to_set names.
Proof.
  intros Hread. apply set_eq. intros name.
  rewrite elem_of_dom, (read_flags_lookup _ _ _ name Hread), elem_of_list_to_set.
  case_decide as Hin.
  - split; [done |]. intros _.
    destruct (cfg !! name) eqn:Hv; [by eexists |].
    by rewrite (read_flags_missing _ _ _ Hin Hv) in Hread.
  - split; [by intros [? [=]] | done].
Qed.

Lemma supported_width_elem w :
  supported_width w = true ↔ w ∈ supported_widths.
Proof.
  unfold supported_width. rewrite existsb_exists. split.
  - intros (x & Hin & ->%Z.eqb_eq). by apply list_elem_of_In.
  - intros Hin. exists w. split; [by apply list_elem_of_In | apply Z.eqb_refl].
Qed.

Lemma construct_inv cfg d :
  construct cfg = inr d →
  cfg !! "SIZEOF_INT" = Some (desc_width d)
  ∧ supported_width (desc_width d) = true
  ∧ read_flags cfg flag_names = inr (desc_flags d).
Proof.
  unfold construct, required.
  destruct (cfg !! "SIZEOF_INT") as [w |]; [| discriminate].
  destruct (supported_width w) eqn:Hw; [| discriminate].
  destruct (read_flags cfg flag_names) as [| m]; [discriminate |].
  by intros [= <-].
Qed.

Lemma construct_succeeds cfg :
  (∃ d, construct cfg = inr d) ↔
  Forall (λ name, is_Some (cfg !! name)) recognized_names
  ∧ ∃ w, cfg !! "SIZEOF_INT" = Some w ∧ w ∈ supported_widths.
Proof.
  split.
  - intros [d (Hw & Hsup & Hread)%construct_inv]. split.
    + apply Forall_cons. split; [by eexists |].
      apply Forall_forall. intros name Hin.
      destruct (cfg !! name) eqn:Hv; [by eexists |].
      by rewrite (read_flags_missing _ _ _ Hin Hv) in Hread.
    + exists (desc_width d). by rewrite <- supported_width_elem.
  - intros [Hall (w & Hw & Hsup)].
    apply Forall_cons in Hall as [_ Hflags].
    destruct (read_flags_present _ _ Hflags) as [m Hm].
    exists (MkDescriptor w m). unfold construct, required.
    apply supported_width_elem in Hsup. by rewrite Hw, Hsup, Hm.
Qed.

Lemma construct_shipped : construct shipped_config = inr shipped_descriptor.
Proof. vm_compute. reflexivity. Qed.

End Construction.

(** ** One flag changed, the others kept *)

Section Configurable.

Implicit Types (cfg : gmap string Z) (d : Descriptor).

Lemma width_is_no_flag : "SIZEOF_INT" ∉ flag_names.
Proof. apply (bool_decide_unpack _). vm_compute. exact I. Qed.

Lemma isAvailable_constructed cfg d name :
  construct cfg = inr d → name ∈ flag_names →
  ∃ v, cfg !! name = Some v ∧ isAvailable d name = inr (truthy v).
Proof.
  intros (_ & _ & Hread)%construct_inv Hin. unfold isAvailable.
  rewrite (read_flags_lookup _ _ _ name Hread), decide_True by done.
  destruct (cfg !! name) as [v |] eqn:Hv; [by exists v |].
  by rewrite (read_flags_missing _ _ _ Hin Hv) in Hread.
Qed.

Lemma isAvailable_unknown cfg d name :
  construct cfg = inr d → name ∉ flag_names →
  isAvailable d name = inl ConfigurationError.
Proof.
  intros (_ & _ & Hread)%construct_inv Hout. unfold isAvailable.
  by rewrite (read_flags_lookup _ _ _ name Hread), decide_False by done.
Qed.

Lemma truthy_b2z b : truthy (Z.b2z b) = b.
Proof. by destruct b. Qed.

Lemma construct_reconfigured cfg d flag b :
  construct cfg = inr d → flag ∈ flag_names →
  ∃ d', construct (<[flag := Z.b2z b]> cfg) = inr d'
        ∧ isAvailable d' flag = inr b
        ∧ (∀ other, other ≠ flag → isAvailable d' other = isAvailable d other)
        ∧ intWidth d' = intWidth d.
Proof.
  intros Hd Hflag.
  assert (flag ≠ "SIZEOF_INT") as Hne.
  { intros ->. by apply width_is_no_flag. }
  assert (∃ d', construct (<[flag := Z.b2z b]> cfg) = inr d') as [d' Hd'].
  { apply construct_succeeds.
    assert (∃ d, construct cfg = inr d) as [Hall (w & Hw & Hsup)]%construct_succeeds
      by eauto.
    split.
    - eapply Forall_impl; [exact Hall |]. intros name [v Hv]. simpl.
      destruct (decide (flag = name)) as [-> | ?].
      + rewrite lookup_insert_eq. by eexists.
      + rewrite lookup_insert_ne by done. by eexists.
    - exists w. by rewrite lookup_insert_ne. }
  exists d'. split; [done |]. split; [| split].
  - destruct (isAvailable_constructed _ _ _ Hd' Hflag) as (v & Hv & ->).
    rewrite lookup_insert_eq in Hv. injection Hv as <-.
    by rewrite truthy_b2z.
  - intros other Hother.
    destruct (decide (other ∈ flag_names)) as [Hin | Hout].
    + destruct (isAvailable_constructed _ _ _ Hd' Hin) as (v' & Hv' & ->).
      destruct (isAvailable_constructed _ _ _ Hd Hin) as (v & Hv & ->).
      rewrite lookup_insert_ne in Hv' by done. congruence.
    + by rewrite (isAvailable_unknown _ _ _ Hd' Hout),
                 (isAvailable_unknown _ _ _ Hd Hout).
  - apply construct_inv in Hd as (Hw & _), Hd' as (Hw' & _).
    rewrite lookup_insert_ne in Hw' by done. unfold intWidth. congruence.
Qed.

End Configurable.

(** ** The shipped descriptor, by evaluation *)

Lemma shipped_config_names :
  dom shipped_config = (list_to_set recognized_names : gset string).
Proof. apply (bool_decide_unpack _). vm_compute. exact I. Qed.

Lemma shipped_macros_names :
  dom shipped_macros = ({[guard]} ∪ list_to_set recognized_names : gset string).
Proof. apply (bool_decide_unpack _). vm_compute. exact I. Qed.

Lemma shipped_flag_cases (P : string → Prop) name :
  name ∈ flag_names → Forall P flag_names → P name.
Proof. intros Hin HP. by eapply Forall_forall in HP. Qed.

Lemma shipped_flags_known name b :
  desc_flags shipped_descriptor !! name = Some b → name ∈ flag_names.
Proof.
  intros Hb.
  destruct (construct_inv _ _ construct_shipped) as (_ & _ & Hread).
  apply read_flags_dom in Hread.
  apply (elem_of_list_to_set (C := gset string)). rewrite <- Hread.
  apply elem_of_dom. by eexists.
Qed.

(** ** The fallback option parser *)

Section OptionParser.

Import Fallback.

Variable optstring : string.

Lemma long_form_classify arg :
  long_form arg = true → classify arg = Unsupported.
Proof.
  destruct arg as [| a rest]; [done |].
  destruct a as [[] [] [] [] [] [] [] []]; try done.
  destruct rest as [| b rest]; [done |].
  destruct b as [[] [] [] [] [] [] [] []]; done.
Qed.

(** A long-form argument anywhere among the arguments ends the parse
    with the configuration error. *)
Lemma getopt_rejects_long_bounded long n : ∀ argv,
  (length argv ≤ n)%nat →
  long_form long = true → long ∈ argv →
  getopt optstring argv = inl ConfigurationError.
Proof.
  induction n as [| n IH]; intros argv Hlen Hlong Hin.
  - destruct argv; [by apply elem_of_nil in Hin | simpl in Hlen; lia].
  - destruct argv as [| arg rest]; [by apply elem_of_nil in Hin |].
    simpl in Hlen. cbn [getopt].
    apply elem_of_cons in Hin as [<- | Hin];
      [by rewrite long_form_classify |].
    destruct (classify arg) as [c | |]; [| done |].
    + destruct (opt_lookup optstring c) as [[] |]; [| | done].
      * by rewrite (IH rest) by (done || lia).
      * destruct rest as [| value rest']; [done |].
        destruct (long_form value) eqn:Hvalue; [done |].
        apply elem_of_cons in Hin as [-> | Hin]; [congruence |].
        simpl in Hlen. by rewrite (IH rest') by (done || lia).
    + by rewrite (IH rest) by (done || lia).
Qed.

Lemma getopt_rejects_long long argv :
  long_form long = true → long ∈ argv →
  getopt optstring argv = inl ConfigurationError.
Proof. by apply (getopt_rejects_long_bounded long (length argv)). Qed.

End OptionParser.

(** * The claims *)

(** C2: the shipped descriptor's [intWidth] is 4, the value of
    SIZEOF_INT in the header; 4 is positive, a power of two and one of
    the supported widths, so construction passes clause (b). *)
Theorem shipped_int_width :
  shipped_config !! "SIZEOF_INT" = Some 4
  ∧ construct shipped_config = inr shipped_descriptor
  ∧ intWidth shipped_descriptor = 4
  ∧ 0 < intWidth shipped_descriptor
  ∧ (∃ k, 0 ≤ k ∧ intWidth shipped_descriptor = 2 ^ k)
  ∧ power_of_two (intWidth shipped_descriptor) = true
  ∧ intWidth shipped_descriptor ∈ supported_widths
  ∧ supported_width (intWidth shipped_descriptor) = true
  ∧ Forall (λ w, power_of_two w = true) supported_widths.
Proof.
  split; [vm_compute; reflexivity |].
  split; [exact construct_shipped |].
  split; [vm_compute; reflexivity |].
  split; [vm_compute; reflexivity |].
  split; [exists 2; split; [lia | vm_compute; reflexivity] |].
  split; [vm_compute; reflexivity |].
  split; [apply supported_width_elem; vm_compute; reflexivity |].
  split; [vm_compute; reflexivity |].
  unfold supported_widths. repeat constructor.
Qed.

(** C3: in the shipped descriptor HAVE_GETOPT is 0 and
    [isAvailable HasOptionParser] answers false; the value is
    configuration data: giving any one flag of a working configuration
    either value yields a descriptor that answers that value for the
    flag and answers as before for every other name and for the width. *)
Theorem option_parser_disabled_configurable :
  shipped_config !! "HAVE_GETOPT" = Some 0
  ∧ isAvailable shipped_descriptor HasOptionParser = inr false
  ∧ ∀ (cfg : gmap string Z) d flag b,
      construct cfg = inr d → flag ∈ flag_names →
      ∃ d', construct (<[flag := Z.b2z b]> cfg) = inr d'
            ∧ isAvailable d' flag = inr b
            ∧ (∀ other, other ≠ flag → isAvailable d' other = isAvailable d other)
            ∧ intWidth d' = intWidth d.
Proof.
  split; [vm_compute; reflexivity |].
  split; [vm_compute; reflexivity |].
  exact construct_reconfigured.
Qed.

Lemma option_parser_disabled_configurable_witness :
  ∃ d', construct (<["HAVE_GETOPT" := Z.b2z true]> shipped_config) = inr d'
        ∧ isAvailable d' "HAVE_GETOPT" = inr true
        ∧ (∀ other, other ≠ "HAVE_GETOPT" →
             isAvailable d' other = isAvailable shipped_descriptor other)
        ∧ intWidth d' = intWidth shipped_descriptor.
Proof.
  apply (proj2 (proj2 option_parser_disabled_configurable)).
  - vm_compute. reflexivity.
  - unfold flag_names. repeat constructor.
Defined.

(** C4: the header gives a value to exactly the fourteen names of the
    interface table (and defines its include guard, without a value); a
    constructed descriptor holds exactly the thirteen flags; and
    [isAvailable] fails with [ConfigurationError] on every name outside
    the recognized set. *)
Theorem recognized_names_closed :
  dom shipped_config = (list_to_set recognized_names : gset string)
  ∧ dom shipped_macros = ({[guard]} ∪ list_to_set recognized_names : gset string)
  ∧ (∀ (cfg : gmap string Z) d,
        construct cfg = inr d →
        dom (desc_flags d) = (list_to_set flag_names : gset string))
  ∧ (∀ (cfg : gmap string Z) d name,
        construct cfg = inr d → name ∉ recognized_names →
        isAvailable d name = inl ConfigurationError).
Proof.
  split; [exact shipped_config_names |].
  split; [exact shipped_macros_names |].
  split.
  - intros cfg d (_ & _ & Hread)%construct_inv. by eapply read_flags_dom.
  - intros cfg d name Hd Hout. eapply isAvailable_unknown; [exact Hd |].
    intros Hin. apply Hout. by apply list_elem_of_further.
Qed.

Lemma recognized_names_closed_witness :
  isAvailable shipped_descriptor "HAVE_TANH" = inl ConfigurationError.
Proof.
  apply (proj2 (proj2 (proj2 recognized_names_closed)) shipped_config).
  - vm_compute. reflexivity.
  - apply (bool_decide_unpack _). vm_compute. exact I.
Defined.

(** C6: the fallback square root of 4.0 is within 1e-9 of 2.0, and on
    every negative argument, -1.0 among them, the fallback answers
    [NumericDomainError] and no number. *)
Theorem fallback_sqrt_contract :
  (∃ r, Fallback.sqrt 4 = inr r ∧ (abs (r - 2) <=? 1 / 1e9)%float = true)
  ∧ Fallback.sqrt (-1) = inl NumericDomainError
  ∧ ∀ x, (x <? 0)%float = true → Fallback.sqrt x = inl NumericDomainError.
Proof.
  split; [exists 2%float; split; vm_compute; reflexivity |].
  split; [vm_compute; reflexivity |].
  intros x Hneg. unfold Fallback.sqrt. by rewrite Hneg.
Qed.

Lemma fallback_sqrt_contract_witness :
  Fallback.sqrt (-0.5) = inl NumericDomainError.
Proof.
  apply (proj2 (proj2 fallback_sqrt_contract)).
  vm_compute. reflexivity.
Defined.

(** C7: the shipped descriptor answers false for HasOptionParser, so
    the resolver selects the fallback parser; with [-v] declared as a
    switch and [-o] as taking an argument, the fallback reads [-v] as
    the switch and [-o value] as the option with its value, and fails
    with [ConfigurationError] on every command line that holds a
    long-form [--option], wherever it stands. *)
Theorem fallback_option_parser (optstring : string) :
  Fallback.opt_lookup optstring "v" = Some Fallback.Switch →
  Fallback.opt_lookup optstring "o" = Some Fallback.WithArgument →
  isAvailable shipped_descriptor HasOptionParser = inr false
  ∧ resolve shipped_descriptor HasOptionParser = inr Fallback
  ∧ Fallback.getopt optstring ["-v"] = inr ([Fallback.Flag "v"], [])
  ∧ (∀ value, Fallback.long_form value = false →
       Fallback.getopt optstring ["-o"; value]
       = inr ([Fallback.Valued "o" value], []))
  ∧ (∀ argv name,
        ("--" ++ name)%string ∈ argv →
        Fallback.getopt optstring argv = inl ConfigurationError).
Proof.
  intros Hv Ho.
  split; [vm_compute; reflexivity |].
  split; [vm_compute; reflexivity |].
  split; [simpl; by rewrite Hv |].
  split; [intros value Hvalue; simpl; by rewrite Ho, Hvalue |].
  intros argv name Hin.
  by apply (getopt_rejects_long optstring ("--" ++ name)%string).
Qed.

Lemma fallback_option_parser_witness :
  Fallback.getopt "vo:" ["in.raw"; "--rate"; "3200"] = inl ConfigurationError.
Proof.
  apply (proj2 (proj2 (proj2 (proj2
           (fallback_option_parser "vo:" eq_refl eq_refl))))
         ["in.raw"; "--rate"; "3200"] "rate").
  apply list_elem_of_further, list_elem_of_here.
Defined.

(** C8: every flag of the shipped descriptor other than HasOptionParser
    is set to 1, [isAvailable] answers true for it and the resolver
    selects the native primitive; HasOptionParser is the only name the
    resolver sends to a fallback. *)
Theorem shipped_capabilities_native (name : string) :
  (name ∈ flag_names → name ≠ HasOptionParser →
     shipped_config !! name = Some 1
     ∧ isAvailable shipped_descriptor name = inr true
     ∧ resolve shipped_descriptor name = inr Native)
  ∧ (resolve shipped_descriptor name = inr Fallback ↔ name = HasOptionParser).
Proof.
  split.
  - intros Hin. pattern name. apply (shipped_flag_cases _ name Hin).
    unfold flag_names, HasOptionParser.
    repeat (apply Forall_cons; split;
            [intros Hne;
             first [exfalso; apply Hne; reflexivity | vm_compute; auto] |]).
    apply Forall_nil_2.
  - split; [| intros ->; vm_compute; reflexivity].
    intros Hres.
    assert (name ∈ flag_names) as Hin.
    { unfold resolve, isAvailable in Hres.
      destruct (desc_flags shipped_descriptor !! name) as [b |] eqn:Hb;
        [by eapply shipped_flags_known | discriminate]. }
    revert Hres. pattern name. apply (shipped_flag_cases _ name Hin).
    unfold flag_names, HasOptionParser.
    repeat (apply Forall_cons; split;
            [intros Hres;
             first [reflexivity | vm_compute in Hres; discriminate] |]).
    apply Forall_nil_2.
Qed.

Lemma shipped_capabilities_native_witness :
  shipped_config !! "HAVE_SQRT" = Some 1
  ∧ isAvailable shipped_descriptor "HAVE_SQRT" = inr true
  ∧ resolve shipped_descriptor "HAVE_SQRT" = inr Native.
Proof.
  apply (proj1 (shipped_capabilities_native "HAVE_SQRT")).
  - unfold flag_names. repeat constructor.
  - discriminate.
Defined.

(** C9: including the header any number n >= 1 of times leaves a
    translation unit with the macro table of a single inclusion, and
    without a redefinition or any other diagnostic. *)
Theorem include_idempotent (n : nat) (st st1 : Cpp.pp_state) :
  (1 ≤ n)%nat →
  Cpp.include config_h st = inr st1 →
  Cpp.include_times n config_h st = inr st1.
Proof.
  intros Hn Hinc. destruct n as [| n]; [lia |]. simpl. rewrite Hinc.
  apply include_times_fixed. by eapply include_again.
Qed.

Lemma include_idempotent_witness :
  Cpp.include_times 3 config_h Cpp.initial
  = inr (Cpp.PPState shipped_macros []).
Proof.
  apply include_idempotent; [lia | vm_compute; reflexivity].
Defined.

(** C10: every boolean flag of the shipped header has a value, the
    value is 0 or 1, and comparing it with 1 gives its truth value. *)
Theorem flags_are_zero_or_one (name : string) :
  name ∈ flag_names →
  ∃ v, shipped_config !! name = Some v
       ∧ (v = 0 ∨ v = 1)
       ∧ (v =? 1) = truthy v.
Proof.
  intros Hin. pattern name. apply (shipped_flag_cases _ name Hin).
  unfold flag_names.
  repeat (apply Forall_cons; split;
          [first [solve [exists 1; vm_compute; auto]
                 | solve [exists 0; vm_compute; auto]] |]).
  apply Forall_nil_2.
Qed.

Lemma flags_are_zero_or_one_witness :
  ∃ v, shipped_config !! "HAVE_GETOPT" = Some v
       ∧ (v = 0 ∨ v = 1)
       ∧ (v =? 1) = truthy v.
Proof.
  apply flags_are_zero_or_one. unfold flag_names. repeat constructor.
Defined.

(** * Inclusion into a translation unit that has macros of its own *)

Section InContext.

Import Cpp.

Implicit Types (m : gmap string string) (defs : list (string * string)).

Lemma config_h_shape :
  config_h = Ifndef guard :: (map define_line header_defines ++ [Endif])%list.
Proof. reflexivity. Qed.


Lemma header_defines_nodup : NoDup header_defines.*1.
Proof. apply (bool_decide_unpack _). vm_compute. exact I. Qed.

Lemma header_defines_table : list_to_map header_defines = shipped_macros.
Proof. apply (bool_decide_unpack _). vm_compute. exact I. Qed.

Lemma first_conflict_fresh defs : ∀ m name body,
  name ∉ defs.*1 →
  first_conflict defs (<[name := body]> m) = first_conflict defs m.
Proof.
  induction defs as [| [n b] rest IH]; intros m name body Hfresh; [done |].
  apply not_elem_of_cons in Hfresh as [Hne Hfresh]. simpl in Hne.
  cbn [first_conflict]. rewrite lookup_insert_ne by done.
  rewrite (IH m name body Hfresh). done.
Qed.

Lemma first_conflict_none defs m :
  first_conflict defs m = None ↔
  ∀ name body old, (name, body) ∈ defs → m !! name = Some old → old = body.
Proof.
  induction defs as [| [n b] rest IH]; cbn [first_conflict].
  - split; [| done]. intros _ name body old Hin. by apply elem_of_nil in Hin.
  - destruct (m !! n) as [old0 |] eqn:Hn.
    + destruct (String.eqb_spec old0 b) as [-> | Hdiff].
      * rewrite IH. split.
        -- intros Hrest name body old [[= -> ->] | Hin]%elem_of_cons Hm;
             [congruence | by eapply Hrest].
        -- intros Hall name body old Hin. apply Hall. by right.
      * split; [discriminate |]. intros Hall. exfalso. apply Hdiff.
        eapply Hall; [by left | done].
    + rewrite IH. split.
      * intros Hrest name body old [[= -> ->] | Hin]%elem_of_cons Hm;
          [congruence | by eapply Hrest].
      * intros Hall name body old Hin. apply Hall. by right.
Qed.


(** The [#define] lines of a group that is being processed, names
    pairwise distinct: they stop at the first conflict, and otherwise
    add themselves to the table. *)
Lemma run_defines defs : NoDup defs.*1 → ∀ m cs tail,
  run (map define_line defs ++ tail)%list (PPState m (true :: cs))
  = match first_conflict defs m with
    | Some name => inl (Redefinition name)
    | None => run tail (PPState (list_to_map defs ∪ m) (true :: cs))
    end.
Proof.
  induction defs as [| [n b] rest IH]; intros Hnodup m cs tail.
  - cbn [map app first_conflict list_to_map foldr]. by rewrite (left_id_L ∅ (∪)).
  - apply NoDup_cons in Hnodup as [Hfresh Hnodup].
    cbn [map app run first_conflict]. unfold define_line at 1.
    cbn [directive_step active conds macros fst snd].
    destruct (m !! n) as [old |] eqn:Hn.
    + destruct (String.eqb_spec old b) as [-> | Hdiff]; [| done].
      rewrite (IH Hnodup). destruct (first_conflict rest m); [done |].
      do 2 f_equal. rewrite list_to_map_cons, <- insert_union_l.
      symmetry. apply insert_id. by rewrite lookup_union_r
        by (by apply not_elem_of_list_to_map_1).
    + rewrite (IH Hnodup), first_conflict_fresh by done.
      destruct (first_conflict rest m); [done |].
      do 2 f_equal. rewrite list_to_map_cons, <- insert_union_l.
      symmetry. apply insert_union_r. by apply not_elem_of_list_to_map_1.
Qed.

(** What one inclusion does when its group is processed and the guard
    is not defined yet. *)
Lemma include_fresh st :
  active st = true → macros st !! guard = None →
  include config_h st
  = match first_conflict header_defines (macros st) with
    | Some name => inl (Redefinition name)
    | None => inr (PPState (shipped_macros ∪ macros st) (conds st))
    end.
Proof.
  intros Hact Hg. unfold include. rewrite Hact, config_h_shape.
  cbn [run directive_step]. unfold defined, active.
  cbn [macros conds]. rewrite Hg. cbn [negb andb].
  rewrite (run_defines _ header_defines_nodup), header_defines_table.
  by destruct (first_conflict header_defines (macros st)).
Qed.


End InContext.

(** X1: in a translation unit that has macros of its own, none of them
    the guard and none in conflict with a line of the header, inclusion
    succeeds; the table it leaves is the header's fifteen macros added
    to the old table, and every macro the header does not define reads
    as before. *)
Theorem include_adds_settings (st : Cpp.pp_state) :
  Cpp.active st = true →
  Cpp.macros st !! guard = None →
  (∀ name body old,
      (name, body) ∈ header_defines →
      Cpp.macros st !! name = Some old → old = body) →
  ∃ st1, Cpp.include config_h st = inr st1
         ∧ Cpp.macros st1 = shipped_macros ∪ Cpp.macros st
         ∧ Cpp.conds st1 = Cpp.conds st
         ∧ (∀ name, name ∈ guard :: recognized_names →
              Cpp.macros st1 !! name = shipped_macros !! name)
         ∧ (∀ name, name ∉ guard :: recognized_names →
              Cpp.macros st1 !! name = Cpp.macros st !! name).
Proof.
  intros Hact Hg Hcompat. apply first_conflict_none in Hcompat.
  eexists. rewrite (include_fresh st Hact Hg), Hcompat.
  split; [reflexivity |]. cbn [Cpp.macros Cpp.conds].
  split; [done |]. split; [done |].
  assert (∀ name, name ∈ guard :: recognized_names ↔
                  is_Some (shipped_macros !! name)) as Hdom.
  { intros name. rewrite <- elem_of_dom, shipped_macros_names.
    rewrite elem_of_union, elem_of_singleton, elem_of_list_to_set.
    by rewrite elem_of_cons. }
  split; intros name Hname.
  - apply Hdom in Hname as [body Hbody]. rewrite Hbody.
    by apply lookup_union_Some_l.
  - apply lookup_union_r. rewrite Hdom in Hname.
    by apply eq_None_not_Some.
Qed.

Lemma include_adds_settings_witness :
  ∃ st1, Cpp.include config_h agreeing_unit = inr st1
         ∧ Cpp.macros st1 = shipped_macros ∪ Cpp.macros agreeing_unit
         ∧ Cpp.conds st1 = Cpp.conds agreeing_unit
         ∧ (∀ name, name ∈ guard :: recognized_names →
              Cpp.macros st1 !! name = shipped_macros !! name)
         ∧ (∀ name, name ∉ guard :: recognized_names →
              Cpp.macros st1 !! name = Cpp.macros agreeing_unit !! name).
Proof.
  apply include_adds_settings.
  - reflexivity.
  - vm_compute. reflexivity.
  - apply first_conflict_none. vm_compute. reflexivity.
Defined.





(** X5: where the header's group is skipped, or the guard is already
    defined, inclusion succeeds and leaves the unit as it was: no
    setting is added, and a setting the unit defines otherwise is
    neither diagnosed nor changed. *)
Theorem include_skipped (st : Cpp.pp_state) :
  Cpp.active st = false ∨ is_Some (Cpp.macros st !! guard) →
  Cpp.include config_h st = inr st
  ∧ ∀ n, Cpp.include_times n config_h st = inr st.
Proof.
  intros Hskip.
  assert (Cpp.include config_h st = inr st) as Hfix.
  { destruct Hskip as [Hoff | Hg]; [| by apply include_guarded].
    unfold Cpp.include. by rewrite Hoff. }
  split; [done |]. intros n. by apply include_times_fixed.
Qed.

Lemma include_skipped_witness :
  Cpp.include config_h
    (Cpp.PPState (<[guard := "1"]> (Cpp.macros overriding_unit)) [])
  = inr (Cpp.PPState (<[guard := "1"]> (Cpp.macros overriding_unit)) [])
  ∧ ∀ n, Cpp.include_times n config_h
           (Cpp.PPState (<[guard := "1"]> (Cpp.macros overriding_unit)) [])
         = inr (Cpp.PPState (<[guard := "1"]> (Cpp.macros overriding_unit)) []).
Proof.
  apply include_skipped. right. vm_compute. by eexists.
Defined.

Lemma included_macro st st1 key body :
  Cpp.active st = true →
  Cpp.macros st !! guard = None →
  Cpp.include config_h st = inr st1 →
  shipped_macros !! key = Some body →
  Cpp.macros st1 !! key = Some body.
Proof.
  intros Hact Hg Hinc Hkey. rewrite (include_fresh st Hact Hg) in Hinc.
  destruct (first_conflict header_defines (Cpp.macros st)); [discriminate |].
  injection Hinc as <-. by apply lookup_union_Some_l.
Qed.

Lemma shipped_flag_texts :
  Forall (λ name, ∃ body v,
            shipped_macros !! name = Some body
            ∧ Cpp.integer_constant body = Some v
            ∧ (truthy v = true ↔ name ≠ "HAVE_GETOPT"))
         flag_names.
Proof.
  unfold flag_names.
  repeat (apply Forall_cons; split;
          [first [ exists "1", 1; split; [vm_compute; reflexivity |];
                   split; [reflexivity |]; split; [discriminate | reflexivity]
                 | exists "0", 0; split; [vm_compute; reflexivity |];
                   split; [reflexivity |]; split; [discriminate | congruence] ]
          |]).
  apply Forall_nil_2.
Qed.

(** X6: after an inclusion that went through the guard, every one of
    the thirteen flags is a defined macro, so a test for definedness
    ([#ifdef]) is true for all of them, while the test of the value
    ([#if]) is true for all but HAVE_GETOPT: the two tests differ on
    HAVE_GETOPT and on no other flag. *)
Theorem ifdef_and_if_differ_on_getopt
  (st st1 : Cpp.pp_state) (name : string) :
  Cpp.active st = true →
  Cpp.macros st !! guard = None →
  Cpp.include config_h st = inr st1 →
  name ∈ flag_names →
  Cpp.defined st1 name = true
  ∧ ∃ v, Cpp.values (Cpp.macros st1) !! name = Some v
         ∧ (truthy v = Cpp.defined st1 name ↔ name ≠ "HAVE_GETOPT").
Proof.
  intros Hact Hg Hinc Hname.
  destruct (shipped_flag_cases _ name Hname shipped_flag_texts)
    as (body & v & Hbody & Hv & Htruth).
  pose proof (included_macro st st1 name body Hact Hg Hinc Hbody) as Hm.
  assert (Cpp.defined st1 name = true) as Hdef
    by (unfold Cpp.defined; by rewrite Hm).
  split; [done |]. exists v. rewrite Hdef. split; [| done].
  unfold Cpp.values. by rewrite lookup_omap, Hm.
Qed.

Lemma ifdef_and_if_differ_on_getopt_witness :
  Cpp.defined agreeing_unit_included "HAVE_GETOPT" = true
  ∧ ∃ v, Cpp.values (Cpp.macros agreeing_unit_included) !! "HAVE_GETOPT"
         = Some v
         ∧ (truthy v = Cpp.defined agreeing_unit_included "HAVE_GETOPT"
            ↔ "HAVE_GETOPT" ≠ "HAVE_GETOPT").
Proof.
  apply (ifdef_and_if_differ_on_getopt agreeing_unit).
  - reflexivity.
  - vm_compute. reflexivity.
  - vm_compute. reflexivity.
  - unfold flag_names. repeat constructor.
Defined.
